(** * tee_secure_process: a verified model of [src/lib/tee_secure.c]

    The repository is a single C function, [tee_secure_process], which
    takes a NUL-terminated string and returns a newly allocated string
    holding the same bytes in reverse order:

    - [len = strlen(input)];
    - [result = malloc(len + 1)];
    - [for (size_t i = 0; i < len; i++) result[i] = input[len - 1 - i]];
    - [result[len] = 0]; [return result].

    The function is embedded statement by statement in a small state-and-fault
    monad over a block-structured heap: a pointer is either null or a block
    identifier with an offset, a block is a list of cells, and every access
    outside an allocated block, through the null pointer or to an
    uninitialised cell is a fault (undefined behaviour in C).  [size_t] is a
    64-bit unsigned integer, represented as [Z] with the wrap-around written
    out.  Every load, store and allocation is recorded in a trace, so that
    the frame and the amount of work of a call can be stated. *)

From Stdlib Require Import ZArith Lia.
From Stdlib.Strings Require Import Byte.
From stdpp Require Import gmap list.

Open Scope Z_scope.

(** ** Machine integers *)

Definition SIZE_WIDTH : Z := 64.
Definition SIZE_MODULUS : Z := 2 ^ SIZE_WIDTH.
Definition SIZE_MAX : Z := SIZE_MODULUS - 1.

(** Arithmetic on [size_t] is modulo [2^64]. *)
Definition size_wrap (z : Z) : Z := z mod SIZE_MODULUS.

(** ** Memory *)

Definition block := positive.

Inductive ptr : Type :=
| Null
| Ptr (b : block) (ofs : Z).

(** A byte of allocated storage: fresh storage from [malloc] is
    indeterminate until it is written. *)
Inductive cell : Type :=
| Uninit
| Init (c : byte).

Inductive event : Type :=
| EvLoad (b : block) (ofs : Z)
| EvStore (b : block) (ofs : Z) (c : byte)
| EvMalloc (n : Z) (r : ptr).

Record state : Type := mkState {
  heap : gmap block (list cell);
  trace : list event
}.

(** The allocator's decision for a request of [n] bytes on a given heap:
    [true] when the request is served, [false] when it fails. *)
Definition allocator : Type := gmap block (list cell) → Z → bool.

Inductive outcome (A : Type) : Type :=
| Done (a : A) (s : state)
| Fault
| OutOfFuel.

Arguments Done {A} a s.
Arguments Fault {A}.
Arguments OutOfFuel {A}.

Definition M (A : Type) : Type := state → outcome A.

Definition ret {A} (a : A) : M A := fun s => Done a s.

Definition bind {A B} (m : M A) (k : A → M B) : M B :=
  fun s => match m s with
           | Done a s' => k a s'
           | Fault => Fault
           | OutOfFuel => OutOfFuel
           end.

Notation "'do' x '<~' m ';' k" := (bind m (fun x => k))
  (at level 10, x name, m at level 100, k at level 200).
Notation "'run' m ';' k" := (bind m (fun _ => k))
  (at level 10, m at level 100, k at level 200).

Definition emit (e : event) (s : state) : state :=
  mkState (heap s) (trace s ++ [e]).

(** [p + k] on pointers. *)
Definition ptr_add (p : ptr) (k : Z) : ptr :=
  match p with
  | Null => Null
  | Ptr b o => Ptr b (o + k)
  end.

(** [*p] as an rvalue of type [char]. *)
Definition load (p : ptr) : M byte := fun s =>
  match p with
  | Null => Fault
  | Ptr b o =>
      match heap s !! b with
      | None => Fault
      | Some cs =>
          if 0 <=? o then
            match cs !! Z.to_nat o with
            | Some (Init c) => Done c (emit (EvLoad b o) s)
            | _ => Fault
            end
          else Fault
      end
  end.

(** [*p = c]. *)
Definition store (p : ptr) (c : byte) : M unit := fun s =>
  match p with
  | Null => Fault
  | Ptr b o =>
      match heap s !! b with
      | None => Fault
      | Some cs =>
          if (0 <=? o) && (o <? Z.of_nat (length cs)) then
            Done tt (mkState (<[b := <[Z.to_nat o := Init c]> cs]> (heap s))
                             (trace s ++ [EvStore b o c]))
          else Fault
      end
  end.

(** [malloc(n)]: either the null pointer, or a pointer to the start of a
    new block of [n] indeterminate bytes, distinct from every live block. *)
Definition malloc (alloc : allocator) (n : Z) : M ptr := fun s =>
  if alloc (heap s) n then
    let b := fresh (dom (heap s)) in
    Done (Ptr b 0)
         (mkState (<[b := replicate (Z.to_nat n) Uninit]> (heap s))
                  (trace s ++ [EvMalloc n (Ptr b 0)]))
  else Done Null (emit (EvMalloc n Null) s).

(** The cells of the block of [p], from [p] on. *)
Definition cells_from (h : gmap block (list cell)) (p : ptr) : option (list cell) :=
  match p with
  | Null => None
  | Ptr b o => if 0 <=? o then drop (Z.to_nat o) <$> h !! b else None
  end.

(** The bytes before the first NUL of a run of cells; [None] when the run
    ends, or meets an uninitialised cell, before any NUL. *)
Fixpoint scan (cs : list cell) : option (list byte) :=
  match cs with
  | [] => None
  | Uninit :: _ => None
  | Init c :: cs' =>
      if Byte.eqb c x00 then Some []
      else match scan cs' with
           | Some s => Some (c :: s)
           | None => None
           end
  end.

(** The C string [p] points to. *)
Definition read_cstring (h : gmap block (list cell)) (p : ptr) : option (list byte) :=
  match cells_from h p with
  | Some cs => scan cs
  | None => None
  end.

Definition load_events (b : block) (o : Z) (n : nat) : list event :=
  (fun k => EvLoad b (o + Z.of_nat k)) <$> seq 0 n.

(** The C library's [strlen]: the number of bytes before the terminating
    NUL, read one by one; scanning past the end of the block or over
    indeterminate bytes is a fault. *)
Definition strlen (p : ptr) : M Z := fun s =>
  match p with
  | Null => Fault
  | Ptr b o =>
      match read_cstring (heap s) p with
      | Some str =>
          Done (size_wrap (Z.of_nat (length str)))
               (mkState (heap s) (trace s ++ load_events b o (S (length str))))
      | None => Fault
      end
  end.

(** ** The function *)

(** The loop [for (...; i < len; i++) result[i] = input[len - 1 - i];]
    entered with the current value of [i]. *)
Fixpoint copy_loop (fuel : nat) (input result : ptr) (len i : Z) : M unit :=
  if i <? len then
    match fuel with
    | O => fun _ => OutOfFuel
    | S fuel' =>
        do c <~ load (ptr_add input (size_wrap (size_wrap (len - 1) - i)));
        run store (ptr_add result i) c;
        copy_loop fuel' input result len (size_wrap (i + 1))
    end
  else ret tt.

Definition tee_secure_process (alloc : allocator) (fuel : nat) (input : ptr) : M ptr :=
  do len <~ strlen input;
  do result <~ malloc alloc (size_wrap (len + 1));
  run copy_loop fuel input result len 0;
  run store (ptr_add result len) x00;
  ret result.

(** ** Inputs *)

(** The logical payload of a byte buffer: the bytes before the first NUL. *)
Fixpoint payload (buf : list byte) : list byte :=
  match buf with
  | [] => []
  | c :: buf' => if Byte.eqb c x00 then [] else c :: payload buf'
  end.

Definition nul_free (s : list byte) : Prop := Forall (fun c => c ≠ x00) s.

(** [p] points to the initialised bytes [buf], somewhere inside a block. *)
Definition buffer_at (h : gmap block (list cell)) (p : ptr) (buf : list byte) : Prop :=
  ∃ rest, cells_from h p = Some ((Init <$> buf) ++ rest).

(** [p] points to the NUL-terminated string with payload [s]. *)
Definition cstring_at (h : gmap block (list cell)) (p : ptr) (s : list byte) : Prop :=
  nul_free s ∧ buffer_at h p (s ++ [x00]).

(** No object is larger than [SIZE_MAX] bytes. *)
Definition heap_wf (h : gmap block (list cell)) : Prop :=
  ∀ b cs, h !! b = Some cs → Z.of_nat (length cs) ≤ SIZE_MAX.

(** The precondition of a call: [input] is a valid, readable,
    NUL-terminated string with payload [s]. *)
Definition valid_input (st : state) (input : ptr) (s : list byte) : Prop :=
  heap_wf (heap st) ∧ cstring_at (heap st) input s.

(** The allocator serves the request made on the heap [h] for the output
    of a payload of [n] bytes. *)
Definition serves (alloc : allocator) (h : gmap block (list cell)) (n : nat) : Prop :=
  alloc h (Z.of_nat n + 1) = true.

(** The allocator refuses the request made on the heap [h] for the output
    of a payload of [n] bytes. *)
Definition refuses (alloc : allocator) (h : gmap block (list cell)) (n : nat) : Prop :=
  alloc h (Z.of_nat n + 1) = false.

(** An event stays inside the footprint of a call: loads read the input
    string (terminator included) and nothing else, stores write the block
    [br] and nothing else, and the one allocation yields [br]. *)
Definition in_footprint (bi : block) (oi : Z) (n : nat) (br : block) (e : event) : Prop :=
  match e with
  | EvLoad b o => b = bi ∧ oi ≤ o ≤ oi + Z.of_nat n
  | EvStore b o _ => b = br ∧ 0 ≤ o ≤ Z.of_nat n
  | EvMalloc _ r => r = Ptr br 0
  end.

(** The events of iteration [i] of the copy loop on a payload [s] of
    length [n]: a load of [input[n-1-i]] and a store of it to [result[i]]. *)
Definition iter_events (bi : block) (oi : Z) (br : block) (s : list byte)
    (i : nat) : list event :=
  match s !! (length s - 1 - i)%nat with
  | Some c => [EvLoad bi (oi + Z.of_nat (length s - 1 - i)); EvStore br (Z.of_nat i) c]
  | None => []
  end.

(** The events of the whole loop: iterations [0], [1], ..., [n-1]. *)
Definition loop_events (bi : block) (oi : Z) (br : block) (s : list byte) : list event :=
  flat_map (iter_events bi oi br s) (seq 0 (length s)).

(** The events of a whole call that reads the payload [s] at block [bi],
    offset [oi], and is given the block [br]. *)
Definition call_events (bi : block) (oi : Z) (br : block) (s : list byte) : list event :=
  load_events bi oi (S (length s))
  ++ [EvMalloc (Z.of_nat (length s) + 1) (Ptr br 0)]
  ++ loop_events bi oi br s
  ++ [EvStore br (Z.of_nat (length s)) x00].





(** A concrete heap used in the examples: block 1 holds ["hello\0"], block 2
    holds the bytes [01 00 02 00]. *)
Definition hello : list byte := [x68; x65; x6c; x6c; x6f].
Definition demo_buffer : list byte := [x01; x00; x02; x00].
Definition demo_heap : gmap block (list cell) :=
  <[2%positive := Init <$> demo_buffer]>
    (<[1%positive := Init <$> (hello ++ [x00])]> ∅).
Definition demo_state : state := mkState demo_heap [].

(** The empty string inside block 2: the NUL at offset 1. *)
Definition demo_empty : ptr := Ptr 2%positive 1.

(** A second heap that holds ["hello\0"] elsewhere: at offset 2 of block 7. *)
Definition other_heap : gmap block (list cell) :=
  <[7%positive := Uninit :: Init xff :: (Init <$> (hello ++ [x00; x41]))]> ∅.
Definition other_state : state := mkState other_heap [EvMalloc 9 (Ptr 7%positive 0)].

(** Running the function on a byte buffer: the buffer is the
    only block of the heap, the call gets fuel for one iteration per byte,
    and the string at the returned pointer is read back. *)
Definition buffer_state (buf : list byte) : state :=
  mkState (<[1%positive := Init <$> buf]> ∅) [].

Definition reverse_of (alloc : allocator) (buf : list byte) : option (list byte) :=
  match tee_secure_process alloc (length buf) (Ptr 1%positive 0) (buffer_state buf) with
  | Done r st' => read_cstring (heap st') r
  | _ => None
  end.

Definition always : allocator := fun _ _ => true.
Definition never : allocator := fun _ _ => false.

(** The state the call on ["hello"] in [demo_state] ends in. *)
Definition demo_result : state :=
  match tee_secure_process always 5 (Ptr 1%positive 0) demo_state with
  | Done _ st' => st'
  | _ => demo_state
  end.


(** * Basic facts *)

Section Basics.

Lemma size_wrap_small (z : Z) : 0 ≤ z < SIZE_MODULUS → size_wrap z = z.
Proof. intros H. unfold size_wrap. apply Z.mod_small; lia. Qed.

Lemma eqb_x00_false (c : byte) : c ≠ x00 → Byte.eqb c x00 = false.
Proof.
  intros Hc. destruct (Byte.eqb c x00) eqn:E; [|done].
  apply byte_dec_bl in E. contradiction.
Qed.

Lemma eqb_x00_true (c : byte) : Byte.eqb c x00 = true → c = x00.
Proof. apply byte_dec_bl. Qed.

Lemma scan_prefix (s : list byte) (rest : list cell) :
  nul_free s → scan ((Init <$> s) ++ Init x00 :: rest) = Some s.
Proof.
  induction 1 as [|c s Hc Hs IH]; [done|].
  rewrite fmap_cons. cbn [app scan].
  by rewrite (eqb_x00_false c Hc), IH.
Qed.

Lemma scan_cstring (s : list byte) (rest : list cell) :
  nul_free s → scan ((Init <$> (s ++ [x00])) ++ rest) = Some s.
Proof.
  intros Hs. rewrite fmap_app, <- app_assoc. by apply scan_prefix.
Qed.

Lemma payload_nul_free (buf : list byte) : nul_free (payload buf).
Proof.
  induction buf as [|c buf IH]; simpl; [constructor|].
  destruct (Byte.eqb c x00) eqn:E; [constructor|].
  constructor; [|done]. intros ->. discriminate.
Qed.

Lemma payload_cstring (s tail : list byte) :
  nul_free s → payload (s ++ x00 :: tail) = s.
Proof.
  induction 1 as [|c s Hc Hs IH]; simpl; [done|].
  by rewrite (eqb_x00_false c Hc), IH.
Qed.

(** A buffer that holds a NUL splits at its first NUL. *)
Lemma payload_split (buf : list byte) :
  x00 ∈ buf → ∃ tail, buf = payload buf ++ x00 :: tail.
Proof.
  induction buf as [|c buf IH]; intros Hin; [by apply elem_of_nil in Hin|].
  simpl. destruct (Byte.eqb c x00) eqn:E.
  - apply eqb_x00_true in E. subst c. by exists buf.
  - apply elem_of_cons in Hin as [<-|Hin]; [discriminate E|].
    destruct (IH Hin) as [tail Ht]. exists tail. cbn [app]. congruence.
Qed.

Lemma buffer_cstring (h : gmap block (list cell)) (p : ptr) (buf : list byte) :
  buffer_at h p buf → x00 ∈ buf → cstring_at h p (payload buf).
Proof.
  intros [rest Hc] Hin. split; [apply payload_nul_free|].
  destruct (payload_split buf Hin) as [tail Ht].
  exists ((Init <$> tail) ++ rest). rewrite Hc. f_equal.
  set (s := payload buf) in *. clearbody s. subst buf.
  rewrite !fmap_app, fmap_cons, <- !app_assoc. done.
Qed.

Lemma cstring_read (h : gmap block (list cell)) (p : ptr) (s : list byte) :
  cstring_at h p s → read_cstring h p = Some s.
Proof.
  intros [Hs [rest Hc]]. unfold read_cstring. rewrite Hc.
  by apply scan_cstring.
Qed.

End Basics.

(** * One step of each memory operation *)

Section Steps.

Lemma load_ok (st : state) (b : block) (o : Z) (cs : list cell) (c : byte) :
  heap st !! b = Some cs → 0 ≤ o → cs !! Z.to_nat o = Some (Init c) →
  load (Ptr b o) st = Done c (emit (EvLoad b o) st).
Proof.
  intros Hb Ho Hc. unfold load. rewrite Hb.
  destruct (Z.leb_spec 0 o); [|lia]. by rewrite Hc.
Qed.

Lemma store_ok (st : state) (b : block) (o : Z) (cs : list cell) (c : byte) :
  heap st !! b = Some cs → 0 ≤ o < Z.of_nat (length cs) →
  store (Ptr b o) c st =
    Done tt (mkState (<[b := <[Z.to_nat o := Init c]> cs]> (heap st))
                     (trace st ++ [EvStore b o c])).
Proof.
  intros Hb Ho. unfold store. rewrite Hb.
  destruct (Z.leb_spec 0 o); [|lia].
  destruct (Z.ltb_spec o (Z.of_nat (length cs))); [done|lia].
Qed.

Lemma rev_lookup {A} (l : list A) (i : nat) :
  (i < length l)%nat → rev l !! i = l !! (length l - 1 - i)%nat.
Proof.
  intros Hi. rewrite rev_alt. change (rev_append l []) with (reverse l).
  rewrite reverse_lookup by done. f_equal. lia.
Qed.

(** The cells of a string, read through its block. *)
Lemma cstring_cells (h : gmap block (list cell)) (b : block) (o : Z) (s : list byte) :
  cstring_at h (Ptr b o) s →
  0 ≤ o ∧ ∃ cs, h !! b = Some cs
    ∧ (∀ j c, s !! j = Some c → cs !! (Z.to_nat o + j)%nat = Some (Init c))
    ∧ cs !! (Z.to_nat o + length s)%nat = Some (Init x00)
    ∧ (Z.to_nat o + length s < length cs)%nat.
Proof.
  intros [_ [rest Hc]]. unfold cells_from in Hc.
  destruct (Z.leb_spec 0 o) as [Ho|]; [|done]. split; [done|].
  destruct (h !! b) as [cs|] eqn:Hb; [|done]. simpl in Hc.
  injection Hc as Hd. exists cs. split; [done|].
  assert (Hlk : ∀ j, cs !! (Z.to_nat o + j)%nat
                   = ((Init <$> (s ++ [x00])) ++ rest) !! j).
  { intros j. by rewrite <- Hd, lookup_drop. }
  assert (Hnul : cs !! (Z.to_nat o + length s)%nat = Some (Init x00)).
  { rewrite Hlk, lookup_app_l by (rewrite length_fmap, length_app; simpl; lia).
    rewrite list_lookup_fmap, lookup_app_r by lia.
    by rewrite Nat.sub_diag. }
  split; [|split; [done|]].
  - intros j c Hj. rewrite Hlk.
    pose proof (lookup_lt_Some _ _ _ Hj) as Hlt.
    rewrite lookup_app_l by (rewrite length_fmap, length_app; simpl; lia).
    rewrite list_lookup_fmap, lookup_app_l by done. by rewrite Hj.
  - by apply lookup_lt_Some in Hnul.
Qed.

End Steps.

(** * The copy loop *)

Section Loop.

(** The loop reads the payload [s] through the block [bi], from offset
    [oi] on, and writes the block [br]. *)
Variables (bi br : block) (oi : Z) (s : list byte) (cs : list cell).
Hypothesis Hne : bi ≠ br.
Hypothesis Hoi : 0 ≤ oi.
Hypothesis Hmax : Z.of_nat (length s) < SIZE_MODULUS.
Hypothesis Hcs :
  ∀ j c, s !! j = Some c → cs !! (Z.to_nat oi + j)%nat = Some (Init c).

(** One iteration of the loop body, entered with [i < len]. *)
Lemma copy_loop_step (out : list cell) (fuel i : nat) (c : byte) (st : state) :
  (i < length s)%nat → s !! (length s - 1 - i)%nat = Some c →
  heap st !! bi = Some cs → heap st !! br = Some out →
  (length s < length out)%nat →
  copy_loop (S fuel) (Ptr bi oi) (Ptr br 0) (Z.of_nat (length s)) (Z.of_nat i) st =
    copy_loop fuel (Ptr bi oi) (Ptr br 0) (Z.of_nat (length s)) (Z.of_nat (S i))
      (mkState (<[br := <[i := Init c]> out]> (heap st))
               (trace st ++ iter_events bi oi br s i)).
Proof.
  intros Hi Hc Hbi Hbr Hout.
  assert (Hlt : (Z.of_nat i <? Z.of_nat (length s)) = true)
    by (apply Z.ltb_lt; lia).
  simpl. rewrite Hlt. unfold bind.
  assert (Hidx : size_wrap (size_wrap (Z.of_nat (length s) - 1) - Z.of_nat i)
                 = Z.of_nat (length s - 1 - i)).
  { rewrite (size_wrap_small (_ - 1)) by lia.
    rewrite size_wrap_small by lia. lia. }
  rewrite Hidx.
  rewrite (load_ok st bi _ cs c); [|done|lia|]; cycle 1.
  { replace (Z.to_nat (oi + Z.of_nat (length s - 1 - i)))
      with (Z.to_nat oi + (length s - 1 - i))%nat by lia.
    by apply Hcs. }
  rewrite (store_ok _ br _ out c); [|done|lia]. simpl.
  rewrite !Z.add_0_l, Nat2Z.id.
  replace (size_wrap (Z.of_nat i + 1)) with (Z.of_nat (S i))
    by (rewrite size_wrap_small; lia).
  unfold iter_events. rewrite Hc. by rewrite <- app_assoc.
Qed.

(** The loop, entered at [i] with [k] iterations to go, writes
    [rev s] at the positions [i .. i+k-1] of the output block and leaves
    every other cell and every other block as they were. *)
Lemma copy_loop_run :
  ∀ (k i fuel : nat) (st : state) (out : list cell),
    (i + k = length s)%nat → (k ≤ fuel)%nat →
    heap st !! bi = Some cs → heap st !! br = Some out →
    (length s < length out)%nat →
    copy_loop fuel (Ptr bi oi) (Ptr br 0) (Z.of_nat (length s)) (Z.of_nat i) st =
      Done tt (mkState
        (<[br := take i out ++ (Init <$> take k (drop i (rev s))) ++ drop (i + k) out]>
           (heap st))
        (trace st ++ flat_map (iter_events bi oi br s) (seq i k))).
Proof.
  induction k as [|k IH];
    intros i fuel st out Hik Hfuel Hbi Hbr Hout.
  - assert (Hlt : (Z.of_nat i <? Z.of_nat (length s)) = false)
      by (apply Z.ltb_ge; lia).
    destruct fuel; simpl; rewrite Hlt; unfold ret;
      rewrite Nat.add_0_r, take_drop, insert_id, app_nil_r by done;
      by destruct st.
  - destruct fuel as [|fuel]; [lia|].
    destruct (s !! (length s - 1 - i)%nat) as [c|] eqn:Hc;
      [|apply lookup_ge_None in Hc; lia].
    rewrite (copy_loop_step out fuel i c st) by (done || lia).
    rewrite (IH (S i) fuel _ (<[i := Init c]> out)); cbn [heap trace];
      [|lia|lia|by rewrite lookup_insert_ne|by rewrite lookup_insert_eq
       |by rewrite length_insert].
    rewrite insert_insert_eq. f_equal. f_equal.
    + f_equal.
      assert (Hr : rev s !! i = Some c) by (rewrite rev_lookup by lia; done).
      rewrite (take_S_r _ i (Init c))
        by (apply list_lookup_insert_eq; lia).
      rewrite take_insert_ge by lia.
      rewrite drop_insert_lt by lia.
      rewrite (drop_S _ c i Hr). simpl.
      rewrite <- app_assoc. simpl.
      by replace (i + S k)%nat with (S (i + k)) by lia.
    + by rewrite <- app_assoc.
Qed.

(** With fewer units of fuel than iterations to go, the loop is cut short. *)
Lemma copy_loop_starved :
  ∀ (fuel k i : nat) (st : state) (out : list cell),
    (i + k = length s)%nat → (fuel < k)%nat →
    heap st !! bi = Some cs → heap st !! br = Some out →
    (length s < length out)%nat →
    copy_loop fuel (Ptr bi oi) (Ptr br 0) (Z.of_nat (length s)) (Z.of_nat i) st =
      OutOfFuel.
Proof.
  induction fuel as [|fuel IH];
    intros k i st out Hik Hfuel Hbi Hbr Hout.
  - assert (Hlt : (Z.of_nat i <? Z.of_nat (length s)) = true)
      by (apply Z.ltb_lt; lia).
    simpl. by rewrite Hlt.
  - destruct (s !! (length s - 1 - i)%nat) as [c|] eqn:Hc;
      [|apply lookup_ge_None in Hc; lia].
    rewrite (copy_loop_step out fuel i c st) by (done || lia).
    apply (IH (k - 1)%nat (S i) _ (<[i := Init c]> out)); cbn [heap trace];
      [lia|lia|by rewrite lookup_insert_ne|by rewrite lookup_insert_eq
      |by rewrite length_insert].
Qed.

End Loop.

(** * The whole call *)

Section Call.

Lemma cstring_length_bound (h : gmap block (list cell)) (p : ptr) (s : list byte) :
  heap_wf h → cstring_at h p s → Z.of_nat (length s) + 1 < SIZE_MODULUS.
Proof.
  intros Hwf Hs. destruct p as [|b o].
  { destruct Hs as [_ [rest Hc]]. discriminate. }
  destruct (cstring_cells h b o s Hs) as (Ho & cs & Hb & _ & _ & Hlen).
  specialize (Hwf b cs Hb). unfold SIZE_MAX in Hwf. lia.
Qed.

Lemma cstring_not_null (h : gmap block (list cell)) (p : ptr) (s : list byte) :
  cstring_at h p s → ∃ b o, p = Ptr b o ∧ 0 ≤ o ∧ is_Some (h !! b).
Proof.
  intros Hs. destruct p as [|b o].
  { destruct Hs as [_ [rest Hc]]. discriminate. }
  destruct (cstring_cells h b o s Hs) as (Ho & cs & Hb & _).
  exists b, o. eauto.
Qed.

Lemma strlen_run (st : state) (b : block) (o : Z) (s : list byte) :
  heap_wf (heap st) → cstring_at (heap st) (Ptr b o) s →
  strlen (Ptr b o) st =
    Done (Z.of_nat (length s))
         (mkState (heap st) (trace st ++ load_events b o (S (length s)))).
Proof.
  intros Hwf Hs. unfold strlen. rewrite (cstring_read _ _ _ Hs).
  pose proof (cstring_length_bound _ _ _ Hwf Hs).
  rewrite size_wrap_small by lia. done.
Qed.

(** The complete effect of a call on a valid input when the allocation is
    served and the loop is given at least as much fuel as the payload is
    long. *)
Lemma tee_run (alloc : allocator) (fuel : nat) (st : state)
    (bi : block) (oi : Z) (s : list byte) :
  heap_wf (heap st) → cstring_at (heap st) (Ptr bi oi) s →
  serves alloc (heap st) (length s) →
  (length s ≤ fuel)%nat →
  tee_secure_process alloc fuel (Ptr bi oi) st =
    Done (Ptr (fresh (dom (heap st))) 0)
         (mkState (<[fresh (dom (heap st)) := (Init <$> rev s) ++ [Init x00]]> (heap st))
                  (trace st ++ call_events bi oi (fresh (dom (heap st))) s)).
Proof.
  intros Hwf Hs Halloc Hfuel.
  pose proof (cstring_length_bound _ _ _ Hwf Hs) as Hmax.
  destruct (cstring_cells _ _ _ _ Hs) as (Ho & cs & Hb & Hcs & _ & _).
  set (br := fresh (dom (heap st))).
  assert (Hfresh : heap st !! br = None).
  { apply not_elem_of_dom. apply is_fresh. }
  assert (Hne : bi ≠ br) by congruence.
  unfold tee_secure_process, bind.
  rewrite (strlen_run st bi oi s Hwf Hs).
  rewrite size_wrap_small by lia.
  unfold malloc. cbn [heap trace]. rewrite Halloc. fold br.
  replace (Z.to_nat (Z.of_nat (length s) + 1)) with (S (length s)) by lia.
  rewrite (copy_loop_run bi br oi s cs Hne Ho ltac:(lia) Hcs
             (length s) 0 fuel _ (replicate (S (length s)) Uninit));
    cbn [heap trace];
    [|done|done|by rewrite lookup_insert_ne|by rewrite lookup_insert_eq
     |rewrite length_replicate; lia].
  rewrite insert_insert_eq, take_0, drop_0, Nat.add_0_l, app_nil_l.
  rewrite (take_ge (rev s)) by (rewrite length_rev; lia).
  rewrite drop_replicate.
  replace (S (length s) - length s)%nat with 1%nat by lia.
  cbn [replicate ptr_add]. rewrite Z.add_0_l.
  erewrite store_ok; cbn [heap trace];
    [|by rewrite lookup_insert_eq
     |rewrite length_app, length_fmap, length_rev; simpl; lia].
  unfold ret. rewrite insert_insert_eq. f_equal. f_equal.
  - f_equal. rewrite Nat2Z.id.
    rewrite insert_app_r_alt by (rewrite length_fmap, length_rev; lia).
    rewrite length_fmap, length_rev, Nat.sub_diag. done.
  - unfold call_events, loop_events. by rewrite <- !app_assoc.
Qed.

End Call.

(** * Consequences of the run lemma *)

Section Post.

Lemma nul_free_rev (s : list byte) : nul_free s → nul_free (rev s).
Proof. apply Forall_rev. Qed.

Lemma rev_cstring_at (h : gmap block (list cell)) (b : block) (s : list byte) :
  nul_free s → cstring_at (<[b := (Init <$> rev s) ++ [Init x00]]> h) (Ptr b 0) (rev s).
Proof.
  intros Hs. split; [by apply nul_free_rev|]. exists [].
  unfold cells_from. simpl. rewrite lookup_insert_eq. simpl.
  by rewrite fmap_app, app_nil_r.
Qed.

Lemma heap_wf_insert (h : gmap block (list cell)) (b : block) (cs : list cell) :
  heap_wf h → Z.of_nat (length cs) ≤ SIZE_MAX → heap_wf (<[b := cs]> h).
Proof.
  intros Hwf Hcs b' cs' Hb'.
  apply lookup_insert_Some in Hb' as [[_ <-]|[_ Hb']]; [done|by eapply Hwf].
Qed.

Lemma cstring_at_frame (h : gmap block (list cell)) (b : block) (cs : list cell)
    (p : ptr) (s : list byte) :
  h !! b = None → cstring_at h p s → cstring_at (<[b := cs]> h) p s.
Proof.
  intros Hb [Hs [rest Hc]]. split; [done|]. exists rest.
  destruct p as [|bp o]; [done|]. unfold cells_from in *.
  destruct (0 <=? o); [|done].
  rewrite lookup_insert_ne; [done|]. intros ->. by rewrite Hb in Hc.
Qed.

(** What a served call with enough fuel returns, in one statement. *)
Lemma tee_returns (alloc : allocator) (fuel : nat) (st : state)
    (input : ptr) (s : list byte) :
  valid_input st input s → serves alloc (heap st) (length s) →
  (length s ≤ fuel)%nat →
  ∃ bi oi br st',
    input = Ptr bi oi
    ∧ tee_secure_process alloc fuel input st = Done (Ptr br 0) st'
    ∧ heap st !! br = None
    ∧ heap st' = <[br := (Init <$> rev s) ++ [Init x00]]> (heap st)
    ∧ trace st' = trace st ++ call_events bi oi br s.
Proof.
  intros [Hwf Hs] Hal Hfuel.
  destruct (cstring_not_null _ _ _ Hs) as (bi & oi & -> & _ & _).
  exists bi, oi, (fresh (dom (heap st))). eexists.
  split; [done|]. split; [by apply tee_run|].
  split; [|done]. apply not_elem_of_dom, is_fresh.
Qed.

Lemma tee_output_valid (st st' : state) (br : block) (s : list byte) :
  Z.of_nat (length s) + 1 < SIZE_MODULUS → nul_free s → heap_wf (heap st) →
  heap st' = <[br := (Init <$> rev s) ++ [Init x00]]> (heap st) →
  valid_input st' (Ptr br 0) (rev s).
Proof.
  intros Hmax Hs Hwf Hh. unfold valid_input. rewrite Hh.
  split; [|by apply rev_cstring_at].
  apply heap_wf_insert; [done|].
  rewrite length_app, length_fmap, length_rev. simpl.
  unfold SIZE_MAX. lia.
Qed.

End Post.

(** * Starved and refused calls *)

Section Failure.

Lemma load_never_starved (p : ptr) (st : state) : load p st ≠ OutOfFuel.
Proof.
  unfold load. destruct p as [|b o]; [done|].
  destruct (heap st !! b) as [cs|]; [|done].
  destruct (0 <=? o); [|done].
  by destruct (cs !! Z.to_nat o) as [[|c]|].
Qed.

(** The first iteration of the loop on a null [result] stores through the
    null pointer. *)
Lemma copy_loop_null (fuel : nat) (input : ptr) (len i : Z) (st : state) :
  i < len → copy_loop (S fuel) input Null len i st = Fault.
Proof.
  intros Hi. simpl.
  destruct (Z.ltb_spec i len); [|lia]. unfold bind.
  pose proof (load_never_starved
    (ptr_add input (size_wrap (size_wrap (len - 1) - i))) st) as Hl.
  by destruct (load _ st).
Qed.

(** A call whose allocation is refused never returns: the null result of
    [malloc] is not checked and is written through. *)
Lemma tee_refused (alloc : allocator) (fuel : nat) (st : state)
    (input : ptr) (s : list byte) :
  valid_input st input s → refuses alloc (heap st) (length s) →
  (∀ r st', tee_secure_process alloc fuel input st ≠ Done r st')
  ∧ ((length s ≤ fuel)%nat → tee_secure_process alloc fuel input st = Fault).
Proof.
  intros [Hwf Hs] Hal.
  pose proof (cstring_length_bound _ _ _ Hwf Hs) as Hmax.
  destruct (cstring_not_null _ _ _ Hs) as (bi & oi & -> & _ & _).
  unfold tee_secure_process, bind.
  rewrite (strlen_run st bi oi s Hwf Hs).
  rewrite size_wrap_small by lia.
  unfold malloc. cbn [heap trace]. unfold refuses in Hal. rewrite Hal.
  destruct (decide (length s = 0%nat)) as [Hn|Hn].
  - rewrite Hn. cbn [Z.of_nat].
    assert (Hloop : ∀ st0, copy_loop fuel (Ptr bi oi) Null 0 0 st0 = Done tt st0)
      by (by destruct fuel).
    rewrite Hloop. by split.
  - destruct fuel as [|fuel].
    + simpl. destruct (Z.ltb_spec 0 (Z.of_nat (length s))); [|lia].
      split; [done|lia].
    + rewrite copy_loop_null by lia. by split.
Qed.

(** A served call with less fuel than payload bytes is cut short in the
    loop: fewer than [length s] iterations never complete it. *)
Lemma tee_starved (alloc : allocator) (fuel : nat) (st : state)
    (input : ptr) (s : list byte) :
  valid_input st input s → serves alloc (heap st) (length s) →
  (fuel < length s)%nat →
  tee_secure_process alloc fuel input st = OutOfFuel.
Proof.
  intros [Hwf Hs] Hal Hfuel.
  pose proof (cstring_length_bound _ _ _ Hwf Hs) as Hmax.
  destruct (cstring_not_null _ _ _ Hs) as (bi & oi & -> & _ & _).
  destruct (cstring_cells _ _ _ _ Hs) as (Ho & cs & Hb & Hcs & _ & _).
  set (br := fresh (dom (heap st))).
  assert (Hfresh : heap st !! br = None).
  { apply not_elem_of_dom. apply is_fresh. }
  assert (Hne : bi ≠ br) by congruence.
  unfold tee_secure_process, bind.
  rewrite (strlen_run st bi oi s Hwf Hs).
  rewrite size_wrap_small by lia.
  unfold malloc. cbn [heap trace]. unfold serves in Hal. rewrite Hal. fold br.
  rewrite (copy_loop_starved bi br oi s cs Hne Ho ltac:(lia) Hcs
             fuel (length s) 0 _ (replicate (Z.to_nat (Z.of_nat (length s) + 1)) Uninit));
    cbn [heap trace];
    [done|done|done|by rewrite lookup_insert_ne|by rewrite lookup_insert_eq
    |rewrite length_replicate; lia].
Qed.

End Failure.

(** * The events of a call *)

Section Events.

Lemma loop_events_length_from (bi br : block) (oi : Z) (s : list byte) (k i : nat) :
  (i + k ≤ length s)%nat →
  length (flat_map (iter_events bi oi br s) (seq i k)) = (2 * k)%nat.
Proof.
  revert i. induction k as [|k IH]; intros i Hik; [done|].
  cbn [seq flat_map]. rewrite length_app, IH by lia.
  unfold iter_events.
  destruct (s !! (length s - 1 - i)%nat) as [c|] eqn:Hc;
    [simpl; lia|apply lookup_ge_None in Hc; lia].
Qed.

Lemma loop_events_length (bi br : block) (oi : Z) (s : list byte) :
  length (loop_events bi oi br s) = (2 * length s)%nat.
Proof. apply loop_events_length_from. lia. Qed.

Lemma call_events_length (bi br : block) (oi : Z) (s : list byte) :
  length (call_events bi oi br s) = (3 * length s + 3)%nat.
Proof.
  unfold call_events, load_events.
  rewrite !length_app, length_fmap, length_seq, loop_events_length.
  simpl. lia.
Qed.

Lemma call_events_footprint (bi br : block) (oi : Z) (s : list byte) :
  Forall (in_footprint bi oi (length s) br) (call_events bi oi br s).
Proof.
  unfold call_events. repeat apply Forall_app_2.
  - apply Forall_fmap, Forall_forall. intros k Hk.
    apply elem_of_seq in Hk. simpl. lia.
  - by repeat constructor.
  - apply Forall_forall. intros e He.
    apply list_elem_of_In, in_flat_map in He as (i & Hi & He).
    apply in_seq in Hi. unfold iter_events in He.
    destruct (s !! (length s - 1 - i)%nat) as [c|]; [|done].
    destruct He as [<-|[<-|[]]]; simpl; lia.
  - repeat constructor; lia.
Qed.

End Events.

(** * A concrete call *)

Section Demo.

Lemma demo_heap_wf : heap_wf demo_heap.
Proof.
  intros b cs Hb. unfold demo_heap in Hb.
  apply lookup_insert_Some in Hb as [[_ <-]|[_ Hb]]; [by vm_compute|].
  apply lookup_insert_Some in Hb as [[_ <-]|[_ Hb]]; [by vm_compute|].
  by rewrite lookup_empty in Hb.
Defined.

Lemma hello_nul_free : nul_free hello.
Proof. unfold hello. repeat constructor; discriminate. Defined.

Lemma demo_valid : valid_input demo_state (Ptr 1%positive 0) hello.
Proof.
  split; [exact demo_heap_wf|]. split; [exact hello_nul_free|].
  exists []. reflexivity.
Defined.

Lemma always_serves (h : gmap block (list cell)) (n : nat) : serves always h n.
Proof. reflexivity. Defined.

Lemma never_refuses (h : gmap block (list cell)) (n : nat) : refuses never h n.
Proof. reflexivity. Defined.

Lemma demo_empty_valid : valid_input demo_state demo_empty [].
Proof.
  split; [exact demo_heap_wf|]. split; [constructor|].
  exists [Init x02; Init x00]. reflexivity.
Defined.

Lemma demo_buffer_at : buffer_at (heap demo_state) (Ptr 2%positive 0) demo_buffer.
Proof. exists []. reflexivity. Defined.

Lemma demo_buffer_nul : x00 ∈ demo_buffer.
Proof. unfold demo_buffer. apply list_elem_of_In. simpl. tauto. Defined.

Lemma other_heap_wf : heap_wf other_heap.
Proof.
  intros b cs Hb. unfold other_heap in Hb.
  apply lookup_insert_Some in Hb as [[_ <-]|[_ Hb]]; [by vm_compute|].
  by rewrite lookup_empty in Hb.
Defined.

Lemma other_valid : valid_input other_state (Ptr 7%positive 2) hello.
Proof.
  split; [exact other_heap_wf|]. split; [exact hello_nul_free|].
  exists [Init x41]. reflexivity.
Defined.

(** The scenarios of the specification, run through the model. *)
Example reverse_hello :
  reverse_of always (hello ++ [x00]) = Some [x6f; x6c; x6c; x65; x68].
Proof. vm_compute. reflexivity. Qed.

Example reverse_empty : reverse_of always [x00] = Some [].
Proof. vm_compute. reflexivity. Qed.

Example reverse_a : reverse_of always [x61; x00] = Some [x61].
Proof. vm_compute. reflexivity. Qed.

Example reverse_ab : reverse_of always [x61; x62; x00] = Some [x62; x61].
Proof. vm_compute. reflexivity. Qed.

Example reverse_embedded_nul : reverse_of always demo_buffer = Some [x01].
Proof. vm_compute. reflexivity. Qed.

Example reverse_unterminated : reverse_of always [x61; x62] = None.
Proof. vm_compute. reflexivity. Qed.

Example reverse_refused : reverse_of never (hello ++ [x00]) = None.
Proof. vm_compute. reflexivity. Qed.

End Demo.

(** * The properties of the specification *)

(** C1. For every valid NUL-terminated input with payload [s] of length
    [N], a served call returns a string [out] with
    [out[i] = s[N-1-i]] for every index [i] in [[0, N)]. *)
Theorem reversed_at_every_index (alloc : allocator) (fuel : nat) (st : state)
    (input : ptr) (s : list byte) :
  valid_input st input s → serves alloc (heap st) (length s) →
  (length s ≤ fuel)%nat →
  ∃ r st' out,
    tee_secure_process alloc fuel input st = Done r st'
    ∧ read_cstring (heap st') r = Some out
    ∧ ∀ i, (i < length s)%nat → out !! i = s !! (length s - 1 - i)%nat.
Proof.
  intros Hv Hal Hfuel.
  destruct (tee_returns alloc fuel st input s Hv Hal Hfuel)
    as (bi & oi & br & st' & -> & Hrun & _ & Hheap & _).
  exists (Ptr br 0), st', (rev s). split; [done|]. split.
  - apply cstring_read. rewrite Hheap. apply rev_cstring_at. apply Hv.
  - intros i Hi. by apply rev_lookup.
Qed.

Lemma reversed_at_every_index_witness :
  valid_input demo_state (Ptr 1%positive 0) hello
  ∧ serves always (heap demo_state) (length hello)
  ∧ (length hello ≤ 5)%nat
  ∧ ∃ r st' out,
      tee_secure_process always 5 (Ptr 1%positive 0) demo_state = Done r st'
      ∧ read_cstring (heap st') r = Some out
      ∧ ∀ i, (i < length hello)%nat → out !! i = hello !! (length hello - 1 - i)%nat.
Proof.
  split; [exact demo_valid|]. split; [exact (always_serves _ _)|].
  split; [simpl; lia|].
  apply (reversed_at_every_index always 5 demo_state (Ptr 1%positive 0) hello).
  - exact demo_valid.
  - exact (always_serves _ _).
  - simpl; lia.
Defined.

(** C2. For every valid input, the payload length of the output equals
    the payload length of the input. *)
Theorem output_length (alloc : allocator) (fuel : nat) (st : state)
    (input : ptr) (s : list byte) :
  valid_input st input s → serves alloc (heap st) (length s) →
  (length s ≤ fuel)%nat →
  ∃ r st' out st'',
    tee_secure_process alloc fuel input st = Done r st'
    ∧ read_cstring (heap st') r = Some out
    ∧ length out = length s
    ∧ strlen r st' = Done (Z.of_nat (length s)) st''.
Proof.
  intros Hv Hal Hfuel.
  pose proof (cstring_length_bound _ _ _ (proj1 Hv) (proj2 Hv)) as Hmax.
  destruct (tee_returns alloc fuel st input s Hv Hal Hfuel)
    as (bi & oi & br & st' & -> & Hrun & _ & Hheap & _).
  destruct (tee_output_valid st st' br s Hmax (proj1 (proj2 Hv)) (proj1 Hv) Hheap)
    as [Hwf' Hs'].
  exists (Ptr br 0), st', (rev s). eexists.
  split; [done|]. split; [by apply cstring_read|].
  split; [apply length_rev|].
  rewrite (strlen_run st' br 0 (rev s) Hwf' Hs'). by rewrite length_rev.
Qed.

Lemma output_length_witness :
  valid_input demo_state (Ptr 1%positive 0) hello
  ∧ serves always (heap demo_state) (length hello)
  ∧ (length hello ≤ 5)%nat
  ∧ ∃ r st' out st'',
      tee_secure_process always 5 (Ptr 1%positive 0) demo_state = Done r st'
      ∧ read_cstring (heap st') r = Some out
      ∧ length out = length hello
      ∧ strlen r st' = Done (Z.of_nat (length hello)) st''.
Proof.
  split; [exact demo_valid|]. split; [exact (always_serves _ _)|].
  split; [simpl; lia|].
  apply (output_length always 5 demo_state (Ptr 1%positive 0) hello).
  - exact demo_valid.
  - exact (always_serves _ _).
  - simpl; lia.
Defined.

(** C3. Involution: the call applied to its own output yields a string
    bytewise equal to the payload of the original input. *)
Theorem involution (alloc : allocator) (fuel : nat) (st : state)
    (input : ptr) (s : list byte) :
  valid_input st input s → (∀ h, serves alloc h (length s)) →
  (length s ≤ fuel)%nat →
  ∃ r1 st1 r2 st2,
    tee_secure_process alloc fuel input st = Done r1 st1
    ∧ tee_secure_process alloc fuel r1 st1 = Done r2 st2
    ∧ read_cstring (heap st2) r2 = Some s.
Proof.
  intros Hv Hal Hfuel.
  pose proof (cstring_length_bound _ _ _ (proj1 Hv) (proj2 Hv)) as Hmax.
  destruct (tee_returns alloc fuel st input s Hv (Hal _) Hfuel)
    as (bi & oi & br & st1 & -> & Hrun1 & _ & Hheap1 & _).
  pose proof (tee_output_valid st st1 br s Hmax (proj1 (proj2 Hv)) (proj1 Hv) Hheap1)
    as Hv1.
  assert (Hal1 : serves alloc (heap st1) (length (rev s)))
    by (rewrite length_rev; apply Hal).
  assert (Hfuel1 : (length (rev s) ≤ fuel)%nat) by (by rewrite length_rev).
  destruct (tee_returns alloc fuel st1 (Ptr br 0) (rev s) Hv1 Hal1 Hfuel1)
    as (bi' & oi' & br2 & st2 & _ & Hrun2 & _ & Hheap2 & _).
  exists (Ptr br 0), st1, (Ptr br2 0), st2.
  split; [done|]. split; [done|].
  apply cstring_read. rewrite Hheap2.
  rewrite <- (rev_involutive s) at 2.
  apply rev_cstring_at, nul_free_rev, Hv.
Qed.

Lemma involution_witness :
  valid_input demo_state (Ptr 1%positive 0) hello
  ∧ (∀ h, serves always h (length hello))
  ∧ (length hello ≤ 5)%nat
  ∧ ∃ r1 st1 r2 st2,
      tee_secure_process always 5 (Ptr 1%positive 0) demo_state = Done r1 st1
      ∧ tee_secure_process always 5 r1 st1 = Done r2 st2
      ∧ read_cstring (heap st2) r2 = Some hello.
Proof.
  split; [exact demo_valid|].
  split; [exact (fun h => always_serves h _)|].
  split; [simpl; lia|].
  apply (involution always 5 demo_state (Ptr 1%positive 0) hello).
  - exact demo_valid.
  - exact (fun h => always_serves h _).
  - simpl; lia.
Defined.

(** C4, as the code has it. The only way a call on a valid input can fail
    is a refused allocation: a served call returns a non-null pointer to a
    new block. The function has no error return: on a refused allocation
    no output and no error value is returned to the caller, since the
    result of [malloc] is used unchecked and the first store through it
    is a fault. *)
Theorem allocation_is_the_only_failure (alloc : allocator) (fuel : nat) (st : state)
    (input : ptr) (s : list byte) :
  valid_input st input s → (length s ≤ fuel)%nat →
  (serves alloc (heap st) (length s) →
     ∃ br st', tee_secure_process alloc fuel input st = Done (Ptr br 0) st'
               ∧ heap st !! br = None)
  ∧ (refuses alloc (heap st) (length s) →
     tee_secure_process alloc fuel input st = Fault
     ∧ ∀ r st', tee_secure_process alloc fuel input st ≠ Done r st').
Proof.
  intros Hv Hfuel. split.
  - intros Hal.
    destruct (tee_returns alloc fuel st input s Hv Hal Hfuel)
      as (bi & oi & br & st' & _ & Hrun & Hfresh & _).
    by exists br, st'.
  - intros Hal.
    destruct (tee_refused alloc fuel st input s Hv Hal) as [Hnever Hfault].
    split; [by apply Hfault|done].
Qed.

Lemma allocation_is_the_only_failure_witness :
  valid_input demo_state (Ptr 1%positive 0) hello
  ∧ (length hello ≤ 5)%nat
  ∧ refuses never (heap demo_state) (length hello)
  ∧ tee_secure_process never 5 (Ptr 1%positive 0) demo_state = Fault.
Proof.
  split; [exact demo_valid|]. split; [simpl; lia|].
  split; [exact (never_refuses _ _)|].
  apply (allocation_is_the_only_failure never 5 demo_state (Ptr 1%positive 0) hello).
  - exact demo_valid.
  - simpl; lia.
  - exact (never_refuses _ _).
Defined.

(** C4, as stated, fails: on the valid input ["hello"] with the allocation
    refused, the call does not hand an allocation error (a null result
    with the memory untouched) back to the caller; it faults. *)
Lemma refused_allocation_not_signaled :
  valid_input demo_state (Ptr 1%positive 0) hello
  ∧ refuses never (heap demo_state) (length hello)
  ∧ tee_secure_process never 5 (Ptr 1%positive 0) demo_state = Fault
  ∧ ¬ (∃ st', tee_secure_process never 5 (Ptr 1%positive 0) demo_state = Done Null st'
              ∧ heap st' = heap demo_state).
Proof.
  split; [exact demo_valid|]. split; [reflexivity|].
  assert (H : tee_secure_process never 5 (Ptr 1%positive 0) demo_state = Fault)
    by (vm_compute; reflexivity).
  split; [exact H|]. intros (st' & Hst' & _). rewrite H in Hst'. discriminate.
Qed.

(** C5. For every valid input a served call leaves every block that was
    live before it, the input's included, exactly as it was: the input
    still holds the same string. Every load of the call reads the input
    string, every store writes the block the call allocated, and nothing
    else is read or written. *)
Theorem input_and_globals_untouched (alloc : allocator) (fuel : nat) (st : state)
    (input : ptr) (s : list byte) :
  valid_input st input s → serves alloc (heap st) (length s) →
  (length s ≤ fuel)%nat →
  ∃ bi oi br st' evs,
    input = Ptr bi oi
    ∧ tee_secure_process alloc fuel input st = Done (Ptr br 0) st'
    ∧ (∀ b cs, heap st !! b = Some cs → heap st' !! b = Some cs)
    ∧ read_cstring (heap st') input = Some s
    ∧ heap st !! br = None
    ∧ trace st' = trace st ++ evs
    ∧ Forall (in_footprint bi oi (length s) br) evs.
Proof.
  intros Hv Hal Hfuel.
  destruct (tee_returns alloc fuel st input s Hv Hal Hfuel)
    as (bi & oi & br & st' & -> & Hrun & Hfresh & Hheap & Htrace).
  exists bi, oi, br, st', (call_events bi oi br s).
  split; [done|]. split; [done|]. split; [|split; [|split; [done|split; [done|]]]].
  - intros b cs Hb. rewrite Hheap, lookup_insert_ne; [done|].
    intros <-. by rewrite Hfresh in Hb.
  - apply cstring_read. rewrite Hheap. apply cstring_at_frame; [done|apply Hv].
  - apply call_events_footprint.
Qed.

Lemma input_and_globals_untouched_witness :
  valid_input demo_state (Ptr 1%positive 0) hello
  ∧ serves always (heap demo_state) (length hello)
  ∧ (length hello ≤ 5)%nat
  ∧ ∃ bi oi br st' evs,
      Ptr 1%positive 0 = Ptr bi oi
      ∧ tee_secure_process always 5 (Ptr 1%positive 0) demo_state = Done (Ptr br 0) st'
      ∧ (∀ b cs, heap demo_state !! b = Some cs → heap st' !! b = Some cs)
      ∧ read_cstring (heap st') (Ptr 1%positive 0) = Some hello
      ∧ heap demo_state !! br = None
      ∧ trace st' = trace demo_state ++ evs
      ∧ Forall (in_footprint bi oi (length hello) br) evs.
Proof.
  split; [exact demo_valid|]. split; [exact (always_serves _ _)|].
  split; [simpl; lia|].
  apply (input_and_globals_untouched always 5 demo_state (Ptr 1%positive 0) hello).
  - exact demo_valid.
  - exact (always_serves _ _).
  - simpl; lia.
Defined.

(** C6. For the empty input a served call returns an empty output: a
    non-null pointer to a new one-byte block that holds the terminator
    only, whatever the fuel. *)
Theorem empty_input_empty_output (alloc : allocator) (fuel : nat) (st : state)
    (input : ptr) :
  valid_input st input [] → serves alloc (heap st) 0 →
  ∃ br st',
    tee_secure_process alloc fuel input st = Done (Ptr br 0) st'
    ∧ Ptr br 0 ≠ Null
    ∧ heap st !! br = None
    ∧ heap st' !! br = Some [Init x00]
    ∧ read_cstring (heap st') (Ptr br 0) = Some [].
Proof.
  intros Hv Hal.
  destruct (tee_returns alloc fuel st input [] Hv Hal ltac:(simpl; lia))
    as (bi & oi & br & st' & -> & Hrun & Hfresh & Hheap & _).
  exists br, st'. split; [done|]. split; [done|]. split; [done|].
  assert (Hbr : heap st' !! br = Some [Init x00])
    by (by rewrite Hheap, lookup_insert_eq).
  split; [done|]. unfold read_cstring, cells_from. simpl. by rewrite Hbr.
Qed.

Lemma empty_input_empty_output_witness :
  valid_input demo_state demo_empty []
  ∧ serves always (heap demo_state) 0
  ∧ ∃ br st',
      tee_secure_process always 0 demo_empty demo_state = Done (Ptr br 0) st'
      ∧ Ptr br 0 ≠ Null
      ∧ heap demo_state !! br = None
      ∧ heap st' !! br = Some [Init x00]
      ∧ read_cstring (heap st') (Ptr br 0) = Some [].
Proof.
  split; [exact demo_empty_valid|]. split; [exact (always_serves _ _)|].
  apply (empty_input_empty_output always 0 demo_state demo_empty).
  - exact demo_empty_valid.
  - exact (always_serves _ _).
Defined.

(** C7. For every valid input of payload length [N] the output block of a
    served call has [N + 1] bytes and carries a NUL in position [N], right
    after the last payload byte; that NUL is written by the call itself, as
    its last store, into the block it allocated. *)
Theorem fresh_terminator (alloc : allocator) (fuel : nat) (st : state)
    (input : ptr) (s : list byte) :
  valid_input st input s → serves alloc (heap st) (length s) →
  (length s ≤ fuel)%nat →
  ∃ br st' cs,
    tee_secure_process alloc fuel input st = Done (Ptr br 0) st'
    ∧ heap st !! br = None
    ∧ heap st' !! br = Some cs
    ∧ length cs = S (length s)
    ∧ cs !! length s = Some (Init x00)
    ∧ last (trace st') = Some (EvStore br (Z.of_nat (length s)) x00).
Proof.
  intros Hv Hal Hfuel.
  destruct (tee_returns alloc fuel st input s Hv Hal Hfuel)
    as (bi & oi & br & st' & -> & Hrun & Hfresh & Hheap & Htrace).
  exists br, st', ((Init <$> rev s) ++ [Init x00]).
  split; [done|]. split; [done|].
  split; [by rewrite Hheap, lookup_insert_eq|].
  split; [rewrite length_app, length_fmap, length_rev; simpl; lia|].
  split.
  - rewrite lookup_app_r by (rewrite length_fmap, length_rev; lia).
    by rewrite length_fmap, length_rev, Nat.sub_diag.
  - rewrite Htrace. unfold call_events. rewrite !app_assoc. apply last_snoc.
Qed.

Lemma fresh_terminator_witness :
  valid_input demo_state (Ptr 1%positive 0) hello
  ∧ serves always (heap demo_state) (length hello)
  ∧ (length hello ≤ 5)%nat
  ∧ ∃ br st' cs,
      tee_secure_process always 5 (Ptr 1%positive 0) demo_state = Done (Ptr br 0) st'
      ∧ heap demo_state !! br = None
      ∧ heap st' !! br = Some cs
      ∧ length cs = S (length hello)
      ∧ cs !! length hello = Some (Init x00)
      ∧ last (trace st') = Some (EvStore br (Z.of_nat (length hello)) x00).
Proof.
  split; [exact demo_valid|]. split; [exact (always_serves _ _)|].
  split; [simpl; lia|].
  apply (fresh_terminator always 5 demo_state (Ptr 1%positive 0) hello).
  - exact demo_valid.
  - exact (always_serves _ _).
  - simpl; lia.
Defined.

(** C8. On a buffer that holds a NUL, the length the call works with is
    the number of bytes before the first NUL, and only that prefix is
    reversed and returned: the output holds no NUL before its own
    terminator. *)
Theorem only_the_prefix_before_the_first_nul (alloc : allocator) (fuel : nat)
    (st : state) (input : ptr) (buf : list byte) :
  heap_wf (heap st) → buffer_at (heap st) input buf → x00 ∈ buf →
  serves alloc (heap st) (length (payload buf)) →
  (length (payload buf) ≤ fuel)%nat →
  ∃ tail st0 r st',
    buf = payload buf ++ x00 :: tail
    ∧ nul_free (payload buf)
    ∧ strlen input st = Done (Z.of_nat (length (payload buf))) st0
    ∧ tee_secure_process alloc fuel input st = Done r st'
    ∧ read_cstring (heap st') r = Some (rev (payload buf))
    ∧ nul_free (rev (payload buf)).
Proof.
  intros Hwf Hbuf Hin Hal Hfuel.
  pose proof (buffer_cstring _ _ _ Hbuf Hin) as Hs.
  destruct (payload_split buf Hin) as [tail Htail].
  assert (Hv : valid_input st input (payload buf)) by done.
  destruct (tee_returns alloc fuel st input (payload buf) Hv Hal Hfuel)
    as (bi & oi & br & st' & -> & Hrun & _ & Hheap & _).
  exists tail. eexists. exists (Ptr br 0), st'.
  split; [done|]. split; [apply payload_nul_free|].
  split; [exact (strlen_run st bi oi (payload buf) Hwf Hs)|]. split; [done|].
  split; [|apply nul_free_rev, payload_nul_free].
  apply cstring_read. rewrite Hheap. apply rev_cstring_at, payload_nul_free.
Qed.

Lemma only_the_prefix_before_the_first_nul_witness :
  heap_wf (heap demo_state)
  ∧ buffer_at (heap demo_state) (Ptr 2%positive 0) demo_buffer
  ∧ x00 ∈ demo_buffer
  ∧ payload demo_buffer = [x01]
  ∧ ∃ tail st0 r st',
      demo_buffer = payload demo_buffer ++ x00 :: tail
      ∧ nul_free (payload demo_buffer)
      ∧ strlen (Ptr 2%positive 0) demo_state
        = Done (Z.of_nat (length (payload demo_buffer))) st0
      ∧ tee_secure_process always 1 (Ptr 2%positive 0) demo_state = Done r st'
      ∧ read_cstring (heap st') r = Some (rev (payload demo_buffer))
      ∧ nul_free (rev (payload demo_buffer)).
Proof.
  split; [exact demo_heap_wf|]. split; [exact demo_buffer_at|].
  split; [exact demo_buffer_nul|]. split; [reflexivity|].
  apply (only_the_prefix_before_the_first_nul always 1 demo_state
           (Ptr 2%positive 0) demo_buffer).
  - exact demo_heap_wf.
  - exact demo_buffer_at.
  - exact demo_buffer_nul.
  - exact (always_serves _ _).
  - simpl; lia.
Defined.

(** C9. Determinism: two calls on inputs of equal byte content, whatever
    the heaps, the addresses, the allocators and the fuel, return strings
    that are bytewise equal. *)
Theorem equal_inputs_equal_outputs (alloc1 alloc2 : allocator) (fuel1 fuel2 : nat)
    (st1 st2 : state) (input1 input2 : ptr) (s : list byte) :
  valid_input st1 input1 s → valid_input st2 input2 s →
  serves alloc1 (heap st1) (length s) → serves alloc2 (heap st2) (length s) →
  (length s ≤ fuel1)%nat → (length s ≤ fuel2)%nat →
  ∃ r1 st1' r2 st2' out,
    tee_secure_process alloc1 fuel1 input1 st1 = Done r1 st1'
    ∧ tee_secure_process alloc2 fuel2 input2 st2 = Done r2 st2'
    ∧ read_cstring (heap st1') r1 = Some out
    ∧ read_cstring (heap st2') r2 = Some out.
Proof.
  intros Hv1 Hv2 Hal1 Hal2 Hfuel1 Hfuel2.
  destruct (tee_returns alloc1 fuel1 st1 input1 s Hv1 Hal1 Hfuel1)
    as (bi1 & oi1 & br1 & st1' & -> & Hrun1 & _ & Hheap1 & _).
  destruct (tee_returns alloc2 fuel2 st2 input2 s Hv2 Hal2 Hfuel2)
    as (bi2 & oi2 & br2 & st2' & -> & Hrun2 & _ & Hheap2 & _).
  exists (Ptr br1 0), st1', (Ptr br2 0), st2', (rev s).
  split; [done|]. split; [done|].
  split; apply cstring_read.
  - rewrite Hheap1. apply rev_cstring_at, Hv1.
  - rewrite Hheap2. apply rev_cstring_at, Hv2.
Qed.

Lemma equal_inputs_equal_outputs_witness :
  valid_input demo_state (Ptr 1%positive 0) hello
  ∧ valid_input other_state (Ptr 7%positive 2) hello
  ∧ ∃ r1 st1' r2 st2' out,
      tee_secure_process always 5 (Ptr 1%positive 0) demo_state = Done r1 st1'
      ∧ tee_secure_process always 9 (Ptr 7%positive 2) other_state = Done r2 st2'
      ∧ read_cstring (heap st1') r1 = Some out
      ∧ read_cstring (heap st2') r2 = Some out.
Proof.
  split; [exact demo_valid|]. split; [exact other_valid|].
  apply (equal_inputs_equal_outputs always always 5 9 demo_state other_state
           (Ptr 1%positive 0) (Ptr 7%positive 2) hello).
  - exact demo_valid.
  - exact other_valid.
  - exact (always_serves _ _).
  - exact (always_serves _ _).
  - simpl; lia.
  - simpl; lia.
Defined.

(** C10. A call on a valid input of payload length [N] terminates: given
    fuel for [N] iterations it never runs out, whatever the allocator
    answers. When the allocation is served the loop runs exactly [N] times:
    with fuel for [N] iterations the call returns and with less it does
    not; each iteration is one load and one store, and the whole call
    performs [3 N + 3] memory events. *)
Theorem terminates_after_N_iterations (alloc : allocator) (st : state)
    (input : ptr) (s : list byte) :
  valid_input st input s →
  (∀ fuel, (length s ≤ fuel)%nat →
     tee_secure_process alloc fuel input st ≠ OutOfFuel)
  ∧ (serves alloc (heap st) (length s) →
     (∀ fuel, (fuel < length s)%nat →
        tee_secure_process alloc fuel input st = OutOfFuel)
     ∧ ∃ bi oi br st',
         input = Ptr bi oi
         ∧ (∀ fuel, (length s ≤ fuel)%nat →
              tee_secure_process alloc fuel input st = Done (Ptr br 0) st')
         ∧ trace st' = trace st ++ call_events bi oi br s
         ∧ length (loop_events bi oi br s) = (2 * length s)%nat
         ∧ length (call_events bi oi br s) = (3 * length s + 3)%nat).
Proof.
  intros Hv.
  destruct (cstring_not_null _ _ _ (proj2 Hv)) as (bi & oi & -> & _ & _).
  split.
  - intros fuel Hfuel.
    destruct (alloc (heap st) (Z.of_nat (length s) + 1)) eqn:Hal.
    + by rewrite (tee_run alloc fuel st bi oi s (proj1 Hv) (proj2 Hv) Hal Hfuel).
    + destruct (tee_refused alloc fuel st (Ptr bi oi) s Hv Hal) as [_ Hfault].
      by rewrite Hfault.
  - intros Hal. split.
    + intros fuel Hfuel. exact (tee_starved alloc fuel st _ s Hv Hal Hfuel).
    + exists bi, oi, (fresh (dom (heap st))). eexists.
      split; [done|]. split.
      * intros fuel Hfuel.
        exact (tee_run alloc fuel st bi oi s (proj1 Hv) (proj2 Hv) Hal Hfuel).
      * split; [done|].
        split; [apply loop_events_length|apply call_events_length].
Qed.

Lemma terminates_after_N_iterations_witness :
  valid_input demo_state (Ptr 1%positive 0) hello
  ∧ serves always (heap demo_state) (length hello)
  ∧ tee_secure_process always 4 (Ptr 1%positive 0) demo_state = OutOfFuel
  ∧ tee_secure_process never 5 (Ptr 1%positive 0) demo_state ≠ OutOfFuel
  ∧ ∃ r st', tee_secure_process always 5 (Ptr 1%positive 0) demo_state = Done r st'.
Proof.
  split; [exact demo_valid|]. split; [exact (always_serves _ _)|].
  destruct (terminates_after_N_iterations always demo_state (Ptr 1%positive 0) hello
              demo_valid)
    as [_ Hserved].
  destruct (Hserved (always_serves _ _))
    as [Hstarved (bi & oi & br & st' & _ & Hrun & _)].
  split; [apply Hstarved; simpl; lia|].
  split.
  - apply (terminates_after_N_iterations never demo_state (Ptr 1%positive 0) hello
             demo_valid). simpl; lia.
  - exists (Ptr br 0), st'. apply Hrun. simpl; lia.
Defined.

(** * Further properties of the function *)

Section Converse.



Lemma read_cstring_insert_ne (h : gmap block (list cell)) (b b' : block)
    (cs : list cell) (o : Z) :
  b ≠ b' → read_cstring (<[b := cs]> h) (Ptr b' o) = read_cstring h (Ptr b' o).
Proof.
  intros Hne. unfold read_cstring, cells_from. by rewrite lookup_insert_ne.
Qed.

Lemma store_inv (b : block) (o : Z) (c : byte) (st st' : state) :
  store (Ptr b o) c st = Done tt st' →
  ∃ cs, heap st !! b = Some cs
        ∧ heap st' = <[b := <[Z.to_nat o := Init c]> cs]> (heap st).
Proof.
  unfold store. destruct (heap st !! b) as [cs|]; [|done].
  destruct ((0 <=? o) && (o <? Z.of_nat (length cs))); [|done].
  intros [= <-]. by exists cs.
Qed.

End Converse.

Section MoreDemo.

Lemma demo_run :
  tee_secure_process always 5 (Ptr 1%positive 0) demo_state
  = Done (Ptr 3%positive 0) demo_result.
Proof. vm_compute. reflexivity. Defined.




End MoreDemo.

(** X1. The function never returns a null pointer: on any input, heap,
    allocator answer and fuel, a call that returns at all returns a pointer
    to the start of a block. *)
Theorem never_returns_null (alloc : allocator) (fuel : nat) (input : ptr)
    (st : state) (r : ptr) (st' : state) :
  tee_secure_process alloc fuel input st = Done r st' →
  ∃ br, r = Ptr br 0 ∧ is_Some (heap st' !! br).
Proof.
  unfold tee_secure_process, bind. intros H.
  destruct (strlen input st) as [len st1| |]; [|done|done].
  unfold malloc in H. destruct (alloc (heap st1) (size_wrap (len + 1))).
  - destruct (copy_loop fuel input _ len 0 _) as [[] st3| |]; [|done|done].
    cbn [ptr_add] in H.
    destruct (store _ x00 st3) as [[] st4| |] eqn:Hst; [|done|done].
    injection H as <- <-. eexists. split; [done|].
    destruct (store_inv _ _ _ _ _ Hst) as (cs & _ & ->).
    rewrite lookup_insert_eq. eauto.
  - destruct (copy_loop fuel input Null len 0 _) as [[] st3| |]; done.
Qed.

Lemma never_returns_null_witness :
  tee_secure_process always 5 (Ptr 1%positive 0) demo_state
    = Done (Ptr 3%positive 0) demo_result
  ∧ ∃ br, Ptr 3%positive 0 = Ptr br 0 ∧ is_Some (heap demo_result !! br).
Proof.
  split; [exact demo_run|].
  apply (never_returns_null always 5 (Ptr 1%positive 0) demo_state
           (Ptr 3%positive 0) demo_result).
  exact demo_run.
Defined.



(** X3. A served call on a valid input adds exactly one block to the heap,
    of [N + 1] bytes, and hands it over completely written: no byte of the
    returned block is left indeterminate. The heap stays well formed. *)
Theorem one_new_block_fully_written (alloc : allocator) (fuel : nat) (st : state)
    (input : ptr) (s : list byte) :
  valid_input st input s → serves alloc (heap st) (length s) →
  (length s ≤ fuel)%nat →
  ∃ br st' cs,
    tee_secure_process alloc fuel input st = Done (Ptr br 0) st'
    ∧ (br ∉ dom (heap st))
    ∧ dom (heap st') = {[br]} ∪ dom (heap st)
    ∧ heap st' !! br = Some cs
    ∧ Z.of_nat (length cs) = Z.of_nat (length s) + 1
    ∧ Forall (fun c => c ≠ Uninit) cs
    ∧ heap_wf (heap st').
Proof.
  intros Hv Hal Hfuel.
  pose proof (cstring_length_bound _ _ _ (proj1 Hv) (proj2 Hv)) as Hmax.
  destruct (tee_returns alloc fuel st input s Hv Hal Hfuel)
    as (bi & oi & br & st' & -> & Hrun & Hfresh & Hheap & _).
  exists br, st', ((Init <$> rev s) ++ [Init x00]).
  split; [done|]. split; [by apply not_elem_of_dom|].
  split; [by rewrite Hheap, dom_insert_L|].
  split; [by rewrite Hheap, lookup_insert_eq|].
  split; [rewrite length_app, length_fmap, length_rev; simpl; lia|].
  split.
  - apply Forall_app_2; [|by repeat constructor].
    apply Forall_fmap, Forall_forall. by intros c _.
  - apply (tee_output_valid st st' br s Hmax (proj1 (proj2 Hv)) (proj1 Hv) Hheap).
Qed.

Lemma one_new_block_fully_written_witness :
  valid_input demo_state (Ptr 1%positive 0) hello
  ∧ serves always (heap demo_state) (length hello)
  ∧ (length hello ≤ 5)%nat
  ∧ ∃ br st' cs,
      tee_secure_process always 5 (Ptr 1%positive 0) demo_state = Done (Ptr br 0) st'
      ∧ (br ∉ dom (heap demo_state))
      ∧ dom (heap st') = {[br]} ∪ dom (heap demo_state)
      ∧ heap st' !! br = Some cs
      ∧ Z.of_nat (length cs) = Z.of_nat (length hello) + 1
      ∧ Forall (fun c => c ≠ Uninit) cs
      ∧ heap_wf (heap st').
Proof.
  split; [exact demo_valid|]. split; [exact (always_serves _ _)|].
  split; [simpl; lia|].
  apply (one_new_block_fully_written always 5 demo_state (Ptr 1%positive 0) hello).
  - exact demo_valid.
  - exact (always_serves _ _).
  - simpl; lia.
Defined.

(** X4. The result does not alias the input: it lives in another block, so
    after the call a write into any block but the input's leaves the input
    string as it was, and a write into any block but the result's leaves
    the result string as it was. *)
Theorem result_independent_of_input (alloc : allocator) (fuel : nat) (st : state)
    (input : ptr) (s : list byte) :
  valid_input st input s → serves alloc (heap st) (length s) →
  (length s ≤ fuel)%nat →
  ∃ bi oi br st',
    input = Ptr bi oi
    ∧ tee_secure_process alloc fuel input st = Done (Ptr br 0) st'
    ∧ bi ≠ br
    ∧ ∀ b o c st'',
        store (Ptr b o) c st' = Done tt st'' →
        (b ≠ bi → read_cstring (heap st'') input = Some s)
        ∧ (b ≠ br → read_cstring (heap st'') (Ptr br 0) = Some (rev s)).
Proof.
  intros Hv Hal Hfuel.
  destruct (tee_returns alloc fuel st input s Hv Hal Hfuel)
    as (bi & oi & br & st' & -> & Hrun & Hfresh & Hheap & _).
  destruct (cstring_not_null _ _ _ (proj2 Hv)) as (bi' & oi' & [= <- <-] & _ & Hlive).
  assert (Hne : bi ≠ br) by (intros ->; rewrite Hfresh in Hlive; by destruct Hlive).
  assert (Hin : read_cstring (heap st') (Ptr bi oi) = Some s).
  { rewrite Hheap, read_cstring_insert_ne by done. apply cstring_read, Hv. }
  assert (Hout : read_cstring (heap st') (Ptr br 0) = Some (rev s)).
  { apply cstring_read. rewrite Hheap. apply rev_cstring_at, Hv. }
  exists bi, oi, br, st'. split; [done|]. split; [done|]. split; [done|].
  intros b o c st'' Hst.
  destruct (store_inv b o c st' st'' Hst) as (cs & _ & ->).
  split; intros Hb; by rewrite read_cstring_insert_ne.
Qed.

Lemma result_independent_of_input_witness :
  valid_input demo_state (Ptr 1%positive 0) hello
  ∧ serves always (heap demo_state) (length hello)
  ∧ (length hello ≤ 5)%nat
  ∧ ∃ bi oi br st',
      Ptr 1%positive 0 = Ptr bi oi
      ∧ tee_secure_process always 5 (Ptr 1%positive 0) demo_state = Done (Ptr br 0) st'
      ∧ bi ≠ br
      ∧ ∀ b o c st'',
          store (Ptr b o) c st' = Done tt st'' →
          (b ≠ bi → read_cstring (heap st'') (Ptr 1%positive 0) = Some hello)
          ∧ (b ≠ br → read_cstring (heap st'') (Ptr br 0) = Some (rev hello)).
Proof.
  split; [exact demo_valid|]. split; [exact (always_serves _ _)|].
  split; [simpl; lia|].
  apply (result_independent_of_input always 5 demo_state (Ptr 1%positive 0) hello).
  - exact demo_valid.
  - exact (always_serves _ _).
  - simpl; lia.
Defined.

(** X5. Two calls on the same input return two different blocks, the
    second call leaves the first result and the input intact, and both
    results read as the reversed payload. *)
Theorem repeated_calls_independent_results (alloc : allocator) (fuel : nat)
    (st : state) (input : ptr) (s : list byte) :
  valid_input st input s → (∀ h, serves alloc h (length s)) →
  (length s ≤ fuel)%nat →
  ∃ b1 st1 b2 st2,
    tee_secure_process alloc fuel input st = Done (Ptr b1 0) st1
    ∧ tee_secure_process alloc fuel input st1 = Done (Ptr b2 0) st2
    ∧ b1 ≠ b2
    ∧ read_cstring (heap st2) (Ptr b1 0) = Some (rev s)
    ∧ read_cstring (heap st2) (Ptr b2 0) = Some (rev s)
    ∧ read_cstring (heap st2) input = Some s.
Proof.
  intros Hv Hal Hfuel.
  pose proof (cstring_length_bound _ _ _ (proj1 Hv) (proj2 Hv)) as Hmax.
  destruct (tee_returns alloc fuel st input s Hv (Hal _) Hfuel)
    as (bi & oi & b1 & st1 & -> & Hrun1 & Hfresh1 & Hheap1 & _).
  pose proof (tee_output_valid st st1 b1 s Hmax (proj1 (proj2 Hv)) (proj1 Hv) Hheap1)
    as [Hwf1 Hout1].
  assert (Hv1 : valid_input st1 (Ptr bi oi) s).
  { split; [done|]. rewrite Hheap1. apply cstring_at_frame; [done|apply Hv]. }
  destruct (tee_returns alloc fuel st1 (Ptr bi oi) s Hv1 (Hal _) Hfuel)
    as (bi' & oi' & b2 & st2 & _ & Hrun2 & Hfresh2 & Hheap2 & _).
  assert (Hne : b1 ≠ b2).
  { intros ->. by rewrite Hheap1, lookup_insert_eq in Hfresh2. }
  exists b1, st1, b2, st2. split; [done|]. split; [done|]. split; [done|].
  split; [|split]; apply cstring_read; rewrite Hheap2.
  - by apply cstring_at_frame.
  - apply rev_cstring_at, Hv.
  - apply cstring_at_frame; [done|apply Hv1].
Qed.

Lemma repeated_calls_independent_results_witness :
  valid_input demo_state (Ptr 1%positive 0) hello
  ∧ (∀ h, serves always h (length hello))
  ∧ (length hello ≤ 5)%nat
  ∧ ∃ b1 st1 b2 st2,
      tee_secure_process always 5 (Ptr 1%positive 0) demo_state = Done (Ptr b1 0) st1
      ∧ tee_secure_process always 5 (Ptr 1%positive 0) st1 = Done (Ptr b2 0) st2
      ∧ b1 ≠ b2
      ∧ read_cstring (heap st2) (Ptr b1 0) = Some (rev hello)
      ∧ read_cstring (heap st2) (Ptr b2 0) = Some (rev hello)
      ∧ read_cstring (heap st2) (Ptr 1%positive 0) = Some hello.
Proof.
  split; [exact demo_valid|].
  split; [exact (fun h => always_serves h _)|].
  split; [simpl; lia|].
  apply (repeated_calls_independent_results always 5 demo_state
           (Ptr 1%positive 0) hello).
  - exact demo_valid.
  - exact (fun h => always_serves h _).
  - simpl; lia.
Defined.

Section Accesses.



End Accesses.


